(** * pyglmnet examples: the Poisson mean function and the elastic-net penalty

    A shallow embedding of the numerical definitions of
    [examples/plot_glmnet.py] ([qu], [lmb], [penalty]) and of the
    regularisation path built in [examples/plot_poisson.py]
    ([reg_lambda]).

    Three readings of NumPy's [float64] are used, from the coarsest to the
    finest.  In the first part scalars are real numbers: [np.exp],
    [np.log], [np.dot] and [np.linalg.norm] are the mathematical functions
    they compute.  [Module Binary64] keeps, in addition, the exponent range
    of the binary64 format, to study overflow.  [Module Float64] keeps the
    range and the 53 bits of precision: every operation rounds its exact
    result to the nearest float, ties to even. *)

From Stdlib Require Import Reals Lra Lia List ZArith Permutation.
Import ListNotations.

Open Scope R_scope.

(** ** NumPy arrays of rank 0, 1 and 2 *)

Inductive ndarray : Type :=
| Scalar (r : R)
| Vector (v : list R)
| Matrix (m : list (list R)).

(** A universal function applies its scalar kernel to every element. *)
Definition ufunc (f : R -> R) (a : ndarray) : ndarray :=
  match a with
  | Scalar r => Scalar (f r)
  | Vector v => Vector (map f v)
  | Matrix m => Matrix (map (map f) m)
  end.

Definition np_exp : ndarray -> ndarray := ufunc exp.
Definition np_log : ndarray -> ndarray := ufunc ln.

(** [c + a] for a Python scalar [c]: the scalar is broadcast. *)
Definition scalar_add (c : R) : ndarray -> ndarray := ufunc (Rplus c).

Fixpoint sum_list (l : list R) : R :=
  match l with
  | [] => 0
  | x :: t => x + sum_list t
  end.

(** Inner product of two vectors; [None] stands for the [ValueError]
    NumPy raises when the shapes are not aligned. *)
Fixpoint inner (x beta : list R) : option R :=
  match x, beta with
  | [], [] => Some 0
  | a :: x', b :: beta' =>
      match inner x' beta' with
      | Some s => Some (a * b + s)
      | None => None
      end
  | _, _ => None
  end.

Fixpoint matvec (m : list (list R)) (beta : list R) : option (list R) :=
  match m with
  | [] => Some []
  | row :: m' =>
      match inner row beta, matvec m' beta with
      | Some s, Some t => Some (s :: t)
      | _, _ => None
      end
  end.

(** [np.dot(x, beta)] for a vector [beta]: a product by a scalar, an inner
    product, or a matrix-vector product, after the rank of [x]. *)
Definition np_dot (x : ndarray) (beta : list R) : option ndarray :=
  match x with
  | Scalar c => Some (Vector (map (Rmult c) beta))
  | Vector v => option_map Scalar (inner v beta)
  | Matrix m => option_map Vector (matvec m beta)
  end.

(** ** plot_glmnet.py *)

(** [np.spacing(1)]: the distance from 1.0 to the next float64. *)
Definition eps : R := / 2 ^ 52.

(** [qu(z)] on one real number. *)
Definition qu (z : R) : R := ln (1 + eps + exp z).

(** [qu(z)] on an array, as the source writes it. *)
Definition qu_nd (z : ndarray) : ndarray :=
  np_log (scalar_add (1 + eps) (np_exp z)).

(** The softplus of the documentation, without the epsilon. *)
Definition softplus (z : R) : R := ln (1 + exp z).

Definition lmb (beta0 : R) (beta : list R) (x : ndarray) : option ndarray :=
  match np_dot x beta with
  | Some d =>
      let z := scalar_add beta0 d in
      Some (np_log (scalar_add (1 + eps) (np_exp z)))
  | None => None
  end.

(** [np.linalg.norm(beta, ord)] for a vector [beta] and [ord] 1 or 2. *)
Definition norm1 (beta : list R) : R := sum_list (map Rabs beta).
Definition norm2 (beta : list R) : R := sqrt (sum_list (map Rsqr beta)).

Definition penalty (alpha : R) (beta : list R) : R :=
  0.5 * (1 - alpha) * norm2 beta + alpha * norm1 beta.

(** The elastic-net penalty as the documentation of [penalty] writes it:
    [(1 - alpha) * 1/2 * ||beta||_2^2 + alpha * ||beta||_1]. *)
Definition penalty_doc (alpha : R) (beta : list R) : R :=
  (1 - alpha) * (1 / 2) * (norm2 beta) ^ 2 + alpha * norm1 beta.

(** ** plot_poisson.py *)

(** [np.linspace(start, stop, num)] with the endpoint included: the samples
    are [i * step + start] and the last one is set to [stop]. *)
Definition linspace (start stop : R) (num : nat) : list R :=
  match num with
  | O => []
  | 1%nat => [start]
  | S div =>
      let step := (stop - start) / INR div in
      map (fun i => INR i * step + start) (seq 0 div) ++ [stop]
  end.

(** [np.logspace(start, stop, num, base=base)] is [base ** linspace(...)]. *)
Definition logspace (start stop : R) (num : nat) (base : R) : list R :=
  map (Rpower base) (linspace start stop num).

Definition reg_lambda : list R :=
  logspace (ln 0.5) (ln 0.01) 10 (exp 1).

(** The step of [reg_lambda] in the exponent. *)
Definition reg_lambda_step : R := (ln 0.01 - ln 0.5) / 9.

(** ** The exponent range of float64

    A float64 value is a finite number, an infinity or a NaN.  The model
    keeps the range of the format and the rules of IEEE 754 for the special
    values; a finite result is not rounded to 53 bits. *)

Module Binary64.

Inductive float64 : Type :=
| Fin (r : R)
| PInf
| NInf
| NaN.

(** With rounding to nearest, a result of magnitude at least
    [2^1024 - 2^970] (the largest float64 plus half a unit in its last
    place) becomes an infinity. *)
Definition overflow_threshold : R := 2 ^ 1024 - 2 ^ 970.

Definition round (r : R) : float64 :=
  if Rle_dec overflow_threshold r then PInf
  else if Rle_dec r (- overflow_threshold) then NInf
  else Fin r.

Definition add (a b : float64) : float64 :=
  match a, b with
  | NaN, _ | _, NaN => NaN
  | PInf, NInf | NInf, PInf => NaN
  | PInf, _ | _, PInf => PInf
  | NInf, _ | _, NInf => NInf
  | Fin x, Fin y => round (x + y)
  end.

Definition exp (a : float64) : float64 :=
  match a with
  | Fin x => round (Rtrigo_def.exp x)
  | PInf => PInf
  | NInf => Fin 0
  | NaN => NaN
  end.

Definition log (a : float64) : float64 :=
  match a with
  | Fin x =>
      if Rlt_dec x 0 then NaN
      else if Req_dec_T x 0 then NInf
      else Fin (ln x)
  | PInf => PInf
  | NInf => NaN
  | NaN => NaN
  end.

Definition eps : float64 := Fin (/ 2 ^ 52).

(** [qu(z)] of plot_glmnet.py on a float64 scalar. *)
Definition qu (z : float64) : float64 :=
  log (add (add (Fin 1) eps) (exp z)).

Definition is_finite (a : float64) : bool :=
  match a with
  | Fin _ => true
  | _ => false
  end.

End Binary64.

(** ** Rounding to binary64

    [rnd x] is the float nearest to [x], ties to even, with an unbounded
    exponent above and the gradual underflow of the format below: the unit
    in the last place of [x] is [2^(e-52)] for [2^e <= |x| < 2^(e+1)], and
    never less than [2^-1074]. *)

(** [2^e] for an integer [e]. *)
Definition bpow (e : Z) : R := powerRZ 2 e.

Arguments bpow e : simpl never.

(** The binary exponent of [x]: the [e] with [2^e <= |x| < 2^(e+1)]. *)
Definition mag2 (x : R) : Z := Int_part (ln (Rabs x) / ln 2).

(** The exponent of the unit in the last place of [x]. *)
Definition cexp (x : R) : Z := Z.max (mag2 x - 52) (-1074).

Definition ulp (x : R) : R := bpow (cexp x).

(** The integer nearest to [t], the even one at a tie. *)
Definition rne (t : R) : Z :=
  let n := Int_part t in
  if Rlt_dec (t - IZR n) (1 / 2) then n
  else if Rlt_dec (1 / 2) (t - IZR n) then (n + 1)%Z
  else if Z.even n then n else (n + 1)%Z.

Definition rnd (x : R) : R := IZR (rne (x / ulp x)) * ulp x.

(** ** float64 with range and precision

    A value is a finite number, an infinity or a NaN (the two zeros are
    not told apart).  An operation computes its exact result, rounds it with
    [rnd] and returns an infinity when the rounded magnitude reaches
    [2^1024]; [exp], [log] and [sqrt] are taken correctly rounded.  The
    norms follow [np.linalg.norm]: [add.reduce(abs(x))] for [ord = 1] and
    [sqrt(dot(x, x))] for [ord = 2], summed from the left. *)

Module Float64.

Inductive float64 : Type :=
| Fin (r : R)
| PInf
| NInf
| NaN.

Definition round (x : R) : float64 :=
  let r := rnd x in
  if Rle_dec (bpow 1024) r then PInf
  else if Rle_dec r (- bpow 1024) then NInf
  else Fin r.

Definition add (a b : float64) : float64 :=
  match a, b with
  | NaN, _ | _, NaN => NaN
  | PInf, NInf | NInf, PInf => NaN
  | PInf, _ | _, PInf => PInf
  | NInf, _ | _, NInf => NInf
  | Fin x, Fin y => round (x + y)
  end.

Definition opp (a : float64) : float64 :=
  match a with
  | Fin x => Fin (- x)
  | PInf => NInf
  | NInf => PInf
  | NaN => NaN
  end.

Definition sub (a b : float64) : float64 := add a (opp b).

(** The product of an infinity by the finite number [x]; [pos] tells the
    sign of the infinity. *)
Definition mul_inf (x : R) (pos : bool) : float64 :=
  if Rlt_dec 0 x then (if pos then PInf else NInf)
  else if Rlt_dec x 0 then (if pos then NInf else PInf)
  else NaN.

Definition mul (a b : float64) : float64 :=
  match a, b with
  | NaN, _ | _, NaN => NaN
  | Fin x, Fin y => round (x * y)
  | Fin x, PInf | PInf, Fin x => mul_inf x true
  | Fin x, NInf | NInf, Fin x => mul_inf x false
  | PInf, PInf | NInf, NInf => PInf
  | PInf, NInf | NInf, PInf => NInf
  end.

Definition abs (a : float64) : float64 :=
  match a with
  | Fin x => Fin (Rabs x)
  | PInf | NInf => PInf
  | NaN => NaN
  end.

Definition sqrt (a : float64) : float64 :=
  match a with
  | Fin x => if Rlt_dec x 0 then NaN else round (R_sqrt.sqrt x)
  | PInf => PInf
  | NInf => NaN
  | NaN => NaN
  end.

Definition exp (a : float64) : float64 :=
  match a with
  | Fin x => round (Rtrigo_def.exp x)
  | PInf => PInf
  | NInf => Fin 0
  | NaN => NaN
  end.

Definition log (a : float64) : float64 :=
  match a with
  | Fin x =>
      if Rlt_dec x 0 then NaN
      else if Req_dec_T x 0 then NInf
      else round (ln x)
  | PInf => PInf
  | NInf => NaN
  | NaN => NaN
  end.

Definition eps : float64 := Fin (/ 2 ^ 52).

(** [qu(z)] of plot_glmnet.py on a float64 scalar. *)
Definition qu (z : float64) : float64 :=
  log (add (add (Fin 1) eps) (exp z)).

Definition norm1 (beta : list float64) : float64 :=
  fold_left add (map abs beta) (Fin 0).

Definition norm2 (beta : list float64) : float64 :=
  sqrt (fold_left add (map (fun b => mul b b) beta) (Fin 0)).

(** [penalty(alpha, beta)] of plot_glmnet.py on float64 values. *)
Definition penalty (alpha : float64) (beta : list float64) : float64 :=
  add (mul (mul (Fin 0.5) (sub (Fin 1) alpha)) (norm2 beta))
      (mul alpha (norm1 beta)).

(** The comparisons [<=] and [<] of float64: false on a NaN. *)
Definition le (a b : float64) : Prop :=
  match a, b with
  | NaN, _ | _, NaN => False
  | NInf, _ | _, PInf => True
  | Fin x, Fin y => x <= y
  | _, _ => False
  end.

Definition lt (a b : float64) : Prop :=
  match a, b with
  | NaN, _ | _, NaN => False
  | PInf, _ | _, NInf => False
  | Fin x, Fin y => x < y
  | _, _ => True
  end.

(** The real number [x] is a float64. *)
Definition is_float (x : R) : Prop := rnd x = x /\ Rabs x < bpow 1024.

Definition is_finite (a : float64) : bool :=
  match a with
  | Fin _ => true
  | _ => false
  end.

End Float64.

(** The argument of the logarithm after the two roundings. *)
Definition log_arg (z : R) : R := rnd (1 + eps + rnd (exp z)).

(** A nonnegative value: a nonnegative number or the positive infinity. *)
Definition nonneg_val (a : Float64.float64) : Prop :=
  a = Float64.PInf \/ exists x, a = Float64.Fin x /\ 0 <= x.

(** A nonnegative value that is the result of a rounding. *)
Definition rounded_val (a : Float64.float64) : Prop :=
  a = Float64.PInf \/
  exists x, a = Float64.Fin x /\ 0 <= x /\ rnd x = x /\ x < bpow 1024.

Definition finite_val (a : Float64.float64) : Prop :=
  exists x, a = Float64.Fin x.

(** ** Auxiliary notions for the statements *)

(** Every element of an array satisfies [P]. *)
Definition ndarray_all (P : R -> Prop) (a : ndarray) : Prop :=
  match a with
  | Scalar r => P r
  | Vector v => Forall P v
  | Matrix m => Forall (Forall P) m
  end.

(** ** Norms *)

Lemma sum_list_nonneg (l : list R) :
  Forall (fun x => 0 <= x) l -> 0 <= sum_list l.
Proof.
  induction 1 as [|x l Hx _ IH]; simpl; lra.
Qed.

Lemma sum_sqr_nonneg (beta : list R) : 0 <= sum_list (map Rsqr beta).
Proof.
  apply sum_list_nonneg, Forall_forall.
  intros y Hy. apply in_map_iff in Hy as [b [<- _]]. apply Rle_0_sqr.
Qed.

Lemma norm2_sqr (beta : list R) : norm2 beta ^ 2 = sum_list (map Rsqr beta).
Proof.
  unfold norm2. simpl. rewrite Rmult_1_r.
  apply sqrt_sqrt, sum_sqr_nonneg.
Qed.

Lemma norm2_3_4 : norm2 [3; 4] = 5.
Proof.
  unfold norm2. simpl.
  replace (Rsqr 3 + (Rsqr 4 + 0)) with (5 * 5) by (unfold Rsqr; lra).
  apply sqrt_square. lra.
Qed.

Lemma norm1_3_4 : norm1 [3; 4] = 7.
Proof.
  unfold norm1. simpl. rewrite !Rabs_pos_eq; lra.
Qed.

(** ** The elastic-net penalty *)

(** Where the code and its documentation part: the L2 term. *)
Lemma penalty_doc_gap (alpha : R) (beta : list R) :
  penalty alpha beta - penalty_doc alpha beta =
  (1 - alpha) / 2 * norm2 beta * (1 - norm2 beta).
Proof.
  unfold penalty, penalty_doc. simpl. lra.
Qed.

(** The documented penalty, with the squared norm written as a sum of
    squares. *)
Lemma penalty_doc_sum_sqr (alpha : R) (beta : list R) :
  penalty_doc alpha beta =
  (1 - alpha) * (1 / 2) * sum_list (map Rsqr beta) + alpha * norm1 beta.
Proof.
  unfold penalty_doc. now rewrite norm2_sqr.
Qed.

(** C1: at [alpha = 0] and [beta = [3; 4]] the code returns half the
    Euclidean norm, 5/2, while the documented elastic-net formula, with the
    squared norm, gives 25/2. *)
Theorem penalty_ridge_norm_not_squared :
  penalty 0 [3; 4] = 5 / 2 /\
  penalty_doc 0 [3; 4] = 25 / 2 /\
  penalty 0 [3; 4] <> (1 / 2) * (norm2 [3; 4]) ^ 2.
Proof.
  unfold penalty, penalty_doc.
  rewrite norm2_3_4, norm1_3_4. simpl.
  repeat split; lra.
Qed.

(** ** The Poisson mean function *)

Lemma eps_pos : 0 < eps.
Proof.
  unfold eps. apply Rinv_0_lt_compat, pow_lt. lra.
Qed.

(** The argument of the logarithm in [qu] exceeds 1. *)
Lemma qu_arg_gt_1 (z : R) : 1 < 1 + eps + exp z.
Proof.
  pose proof eps_pos. pose proof (exp_pos z). lra.
Qed.

Lemma exp_qu (z : R) : exp (qu z) = 1 + eps + exp z.
Proof.
  unfold qu. apply exp_ln. pose proof (qu_arg_gt_1 z). lra.
Qed.

Lemma exp_softplus (z : R) : exp (softplus z) = 1 + exp z.
Proof.
  unfold softplus. apply exp_ln. pose proof (exp_pos z). lra.
Qed.

Lemma ln_1_plus_lt (x : R) : 0 < x -> ln (1 + x) < x.
Proof.
  intros Hx. rewrite <- (ln_exp x) at 2.
  apply ln_increasing; [lra|].
  apply exp_ineq1. lra.
Qed.

(** C6: [qu z] is the logarithm of [1 + eps + exp z] with [eps = 2^-52];
    the argument of the logarithm is never zero (it exceeds 1), and [qu]
    departs from the softplus [ln (1 + exp z)] by the epsilon only: the
    arguments differ by [eps] and the values by less than [eps]. *)
Theorem qu_softplus_eps (z : R) :
  qu z = ln (1 + eps + exp z) /\
  eps = / 2 ^ 52 /\
  1 + eps + exp z <> 0 /\
  exp (qu z) = exp (softplus z) + eps /\
  softplus z < qu z < softplus z + eps.
Proof.
  pose proof eps_pos as He. pose proof (exp_pos z) as Hz.
  pose proof (qu_arg_gt_1 z) as Harg.
  split; [reflexivity|]. split; [reflexivity|].
  split; [lra|]. split.
  - rewrite exp_qu, exp_softplus. lra.
  - split.
    + unfold softplus, qu. apply ln_increasing; lra.
    + unfold softplus, qu.
      replace (1 + eps + exp z)
        with ((1 + exp z) * (1 + eps / (1 + exp z))) by (field; lra).
      assert (Hq : 0 < eps / (1 + exp z)).
      { apply Rdiv_lt_0_compat; lra. }
      rewrite ln_mult; [|lra|lra].
      apply Rplus_lt_compat_l.
      apply Rlt_le_trans with (eps / (1 + exp z)).
      * apply ln_1_plus_lt, Hq.
      * unfold Rdiv. rewrite <- (Rmult_1_r eps) at 2.
        apply Rmult_le_compat_l; [lra|].
        rewrite <- Rinv_1. apply Rinv_le_contravar; lra.
Qed.

(** ** The conditional intensity *)

Lemma qu_nd_ufunc (z : ndarray) : qu_nd z = ufunc qu z.
Proof.
  destruct z as [r|v|m]; unfold qu_nd, np_log, np_exp, scalar_add, qu;
    simpl; try reflexivity.
  - now rewrite !map_map.
  - f_equal. rewrite !map_map. apply map_ext. intros row.
    now rewrite !map_map.
Qed.

(** C5: [lmb beta0 beta x] is [qu] applied to the linear predictor
    [beta0 + np.dot(x, beta)], element by element: on a row of the design
    it is one value of [qu], on a matrix one value per row; it fails
    exactly when the product fails. *)
Theorem lmb_is_qu_of_predictor (beta0 : R) (beta : list R) :
  (forall x,
     lmb beta0 beta x =
     option_map (fun d => qu_nd (scalar_add beta0 d)) (np_dot x beta)) /\
  (forall x s,
     inner x beta = Some s ->
     lmb beta0 beta (Vector x) = Some (Scalar (qu (beta0 + s)))) /\
  (forall m t,
     matvec m beta = Some t ->
     lmb beta0 beta (Matrix m) =
     Some (Vector (map (fun s => qu (beta0 + s)) t))).
Proof.
  assert (Hgen : forall x,
     lmb beta0 beta x =
     option_map (fun d => qu_nd (scalar_add beta0 d)) (np_dot x beta)).
  { intros x. unfold lmb, qu_nd. now destruct (np_dot x beta). }
  split; [exact Hgen|]. split.
  - intros x s Hs. rewrite Hgen. simpl. rewrite Hs. simpl.
    now rewrite qu_nd_ufunc.
  - intros m t Ht. rewrite Hgen. simpl. rewrite Ht. simpl.
    rewrite qu_nd_ufunc. simpl. now rewrite map_map.
Qed.

Lemma lmb_is_qu_of_predictor_witness :
  lmb 1 [2; 3] (Vector [4; 5]) =
    Some (Scalar (qu (1 + (4 * 2 + (5 * 3 + 0))))) /\
  lmb 1 [2; 3] (Matrix [[4; 5]; [6; 7]]) =
    Some (Vector (map (fun s => qu (1 + s))
                      [4 * 2 + (5 * 3 + 0); 6 * 2 + (7 * 3 + 0)])).
Proof.
  destruct (lmb_is_qu_of_predictor 1 [2; 3]) as [_ [Hrow Hmat]].
  split; [apply Hrow | apply Hmat]; reflexivity.
Defined.

(** ** The regularisation path *)

Lemma linspace_SS (a b : R) (k : nat) :
  linspace a b (S (S k)) =
  map (fun i => INR i * ((b - a) / INR (S k)) + a) (seq 0 (S k)) ++ [b].
Proof. reflexivity. Qed.

Lemma linspace_length (a b : R) (n : nat) : length (linspace a b n) = n.
Proof.
  destruct n as [|[|k]]; try reflexivity.
  rewrite linspace_SS, length_app, length_map, length_seq. simpl. lia.
Qed.

(** Every sample of [linspace], the last one included, lies on the line
    from [start] to [stop]. *)
Lemma linspace_nth (a b : R) (k i : nat) :
  (i <= S k)%nat ->
  nth i (linspace a b (S (S k))) 0 = a + INR i * ((b - a) / INR (S k)).
Proof.
  intros Hi. rewrite linspace_SS.
  set (f := fun j : nat => INR j * ((b - a) / INR (S k)) + a).
  assert (Hlen : length (map f (seq 0 (S k))) = S k)
    by now rewrite length_map, length_seq.
  destruct (Nat.eq_dec i (S k)) as [->|Hne].
  - rewrite app_nth2 by lia. rewrite Hlen, Nat.sub_diag. cbn [nth].
    assert (INR (S k) <> 0) by (apply not_0_INR; lia).
    field. assumption.
  - rewrite app_nth1 by lia.
    rewrite (nth_indep _ 0 (f 0%nat)) by lia.
    rewrite map_nth, seq_nth by lia.
    unfold f. cbn [Nat.add]. lra.
Qed.

Lemma logspace_length (a b : R) (n : nat) (base : R) :
  length (logspace a b n base) = n.
Proof.
  unfold logspace. now rewrite length_map, linspace_length.
Qed.

Lemma logspace_nth (a b : R) (k i : nat) (base : R) :
  (i <= S k)%nat ->
  nth i (logspace a b (S (S k)) base) 0 =
  Rpower base (a + INR i * ((b - a) / INR (S k))).
Proof.
  intros Hi. unfold logspace.
  rewrite (nth_indep _ 0 (Rpower base 0))
    by (rewrite length_map, linspace_length; lia).
  now rewrite map_nth, linspace_nth.
Qed.

Lemma reg_lambda_step_neg : reg_lambda_step < 0.
Proof.
  unfold reg_lambda_step.
  assert (ln 0.01 < ln 0.5) by (apply ln_increasing; lra).
  lra.
Qed.

Lemma reg_lambda_nth (i : nat) :
  (i <= 9)%nat ->
  nth i reg_lambda 0 = exp (ln 0.5 + INR i * reg_lambda_step).
Proof.
  intros Hi. unfold reg_lambda.
  rewrite logspace_nth by exact Hi.
  unfold Rpower, reg_lambda_step. rewrite ln_exp, Rmult_1_r.
  f_equal. simpl. lra.
Qed.

(** C7: the default path has 10 elements, starts at 0.5 and ends at 0.01,
    is positive and strictly decreasing, and is evenly spaced in the
    logarithm. *)
Theorem reg_lambda_log_spaced_decreasing :
  length reg_lambda = 10%nat /\
  nth 0 reg_lambda 0 = 0.5 /\
  nth 9 reg_lambda 0 = 0.01 /\
  Forall (fun l => 0 < l) reg_lambda /\
  (forall i j, (i < j < 10)%nat ->
     nth j reg_lambda 0 < nth i reg_lambda 0) /\
  (forall i, (i < 9)%nat ->
     ln (nth (S i) reg_lambda 0) - ln (nth i reg_lambda 0) =
     (ln 0.01 - ln 0.5) / 9).
Proof.
  split; [apply logspace_length|].
  split.
  { rewrite reg_lambda_nth by lia. simpl.
    rewrite Rmult_0_l, Rplus_0_r. apply exp_ln. lra. }
  split.
  { rewrite reg_lambda_nth by lia.
    replace (ln 0.5 + INR 9 * reg_lambda_step) with (ln 0.01)
      by (unfold reg_lambda_step; simpl; lra).
    apply exp_ln. lra. }
  split.
  { apply Forall_forall. intros l Hl.
    apply (In_nth _ _ 0) in Hl as [i [Hi <-]].
    unfold reg_lambda in Hi. rewrite logspace_length in Hi.
    rewrite reg_lambda_nth by lia. apply exp_pos. }
  split.
  { intros i j Hij. rewrite !reg_lambda_nth by lia.
    apply exp_increasing.
    assert (INR i < INR j) by (apply lt_INR; lia).
    pose proof reg_lambda_step_neg. nra. }
  intros i Hi. rewrite !reg_lambda_nth by lia.
  rewrite !ln_exp, S_INR. unfold reg_lambda_step. lra.
Qed.

Lemma reg_lambda_log_spaced_decreasing_witness :
  nth 1 reg_lambda 0 < nth 0 reg_lambda 0 /\
  ln (nth 1 reg_lambda 0) - ln (nth 0 reg_lambda 0) =
  (ln 0.01 - ln 0.5) / 9.
Proof.
  destruct reg_lambda_log_spaced_decreasing
    as [_ [_ [_ [_ [Hdec Hstep]]]]].
  split; [apply Hdec | apply Hstep]; lia.
Defined.

(** ** Overflow of [qu] in float64 *)

Lemma exp_INR_mult (n : nat) (x : R) : exp (INR n * x) = exp x ^ n.
Proof.
  induction n as [|n IH].
  - simpl. rewrite Rmult_0_l. apply exp_0.
  - rewrite S_INR, Rmult_plus_distr_r, Rmult_1_l, exp_plus, IH.
    simpl. ring.
Qed.

Lemma overflow_threshold_IZR :
  Binary64.overflow_threshold = IZR (2 ^ 1024 - 2 ^ 970).
Proof.
  unfold Binary64.overflow_threshold.
  rewrite !pow_IZR, <- minus_IZR. f_equal.
Qed.

Lemma overflow_threshold_le_pow : Binary64.overflow_threshold <= 2 ^ 1024.
Proof.
  unfold Binary64.overflow_threshold.
  assert (0 < 2 ^ 970) by (apply pow_lt; lra).
  lra.
Qed.

(** [e^1000] is beyond the range: already [(3/2)^2000] is. *)
Lemma exp_1000_ge : 2 ^ 1024 <= exp 1000.
Proof.
  replace 1000 with (INR 2000 * (1 / 2)).
  2:{ rewrite INR_IZR_INZ.
      change (IZR (Z.of_nat 2000)) with (IZR 2000). lra. }
  rewrite exp_INR_mult.
  apply Rle_trans with ((3 / 2) ^ 2000).
  - apply Rmult_le_reg_r with (2 ^ 2000); [apply pow_lt; lra|].
    rewrite <- Rpow_mult_distr.
    replace (3 / 2 * 2) with 3 by lra.
    rewrite !pow_IZR, <- mult_IZR. apply IZR_le.
    apply Z.leb_le. vm_compute. reflexivity.
  - apply pow_incr. split; [lra|].
    left. replace (3 / 2) with (1 + 1 / 2) by lra.
    apply exp_ineq1. lra.
Qed.

Lemma round_in_range (r : R) :
  - Binary64.overflow_threshold < r < Binary64.overflow_threshold ->
  Binary64.round r = Binary64.Fin r.
Proof.
  intros [Hlo Hhi]. unfold Binary64.round.
  destruct (Rle_dec Binary64.overflow_threshold r); [lra|].
  destruct (Rle_dec r (- Binary64.overflow_threshold)); [lra|].
  reflexivity.
Qed.

Lemma overflow_threshold_gt_pow3 : 2 + 3 ^ 600 < Binary64.overflow_threshold.
Proof.
  rewrite overflow_threshold_IZR, pow_IZR, <- plus_IZR.
  apply IZR_lt. apply Z.ltb_lt. vm_compute. reflexivity.
Qed.

Lemma one_plus_eps : Binary64.add (Binary64.Fin 1) Binary64.eps =
                     Binary64.Fin (1 + eps).
Proof.
  unfold Binary64.add, Binary64.eps. fold eps.
  apply round_in_range.
  pose proof eps_pos as He.
  assert (eps < 1).
  { unfold eps. rewrite <- Rinv_1. apply Rinv_lt_contravar.
    - rewrite Rmult_1_l. apply pow_lt. lra.
    - apply Rlt_pow_R1; [lra | lia]. }
  pose proof overflow_threshold_gt_pow3.
  assert (0 < 3 ^ 600) by (apply pow_lt; lra).
  lra.
Qed.

(** Up to 600 the float64 evaluation stays in range and returns the value
    of the real function. *)
Lemma qu_in_range (z : R) :
  z <= 600 -> Binary64.qu (Binary64.Fin z) = Binary64.Fin (qu z).
Proof.
  intros Hz.
  assert (Hexp : exp z <= 3 ^ 600).
  { apply Rle_trans with (exp 600).
    - destruct Hz as [Hz| ->]; [left; now apply exp_increasing | right; reflexivity].
    - replace 600 with (INR 600 * 1).
      2:{ rewrite INR_IZR_INZ.
          change (IZR (Z.of_nat 600)) with (IZR 600). lra. }
      rewrite exp_INR_mult. apply pow_incr.
      split; [left; apply exp_pos | apply exp_le_3]. }
  pose proof (exp_pos z) as Hpos. pose proof eps_pos as He.
  pose proof overflow_threshold_gt_pow3 as HT.
  assert (He1 : eps < 1).
  { unfold eps. rewrite <- Rinv_1. apply Rinv_lt_contravar.
    - rewrite Rmult_1_l. apply pow_lt. lra.
    - apply Rlt_pow_R1; [lra | lia]. }
  unfold Binary64.qu. rewrite one_plus_eps.
  unfold Binary64.exp. rewrite round_in_range by lra.
  unfold Binary64.add. rewrite round_in_range by lra.
  unfold Binary64.log.
  destruct (Rlt_dec (1 + eps + exp z) 0); [lra|].
  destruct (Req_dec_T (1 + eps + exp z) 0); [lra|].
  reflexivity.
Qed.

(** C4: at [z = 1000] the exponential overflows, so [qu] returns the
    positive infinity, not a finite value. *)
Theorem qu_overflows_at_1000 :
  Binary64.exp (Binary64.Fin 1000) = Binary64.PInf /\
  Binary64.qu (Binary64.Fin 1000) = Binary64.PInf /\
  Binary64.is_finite (Binary64.qu (Binary64.Fin 1000)) = false.
Proof.
  assert (Hexp : Binary64.exp (Binary64.Fin 1000) = Binary64.PInf).
  { unfold Binary64.exp, Binary64.round.
    destruct (Rle_dec Binary64.overflow_threshold (exp 1000)) as [_|Hn];
      [reflexivity|].
    exfalso. apply Hn.
    apply Rle_trans with (2 ^ 1024);
      [apply overflow_threshold_le_pow | apply exp_1000_ge]. }
  assert (Hqu : Binary64.qu (Binary64.Fin 1000) = Binary64.PInf).
  { unfold Binary64.qu. rewrite Hexp, one_plus_eps. reflexivity. }
  split; [exact Hexp|]. split; [exact Hqu|].
  now rewrite Hqu.
Qed.

(** ** Further properties of the penalty *)




(** ** Further properties of the mean function *)

Lemma qu_pos (z : R) : 0 < qu z.
Proof.
  unfold qu. rewrite <- ln_1.
  apply ln_increasing; [lra | apply qu_arg_gt_1].
Qed.


(** ** Further properties of the conditional intensity *)

Lemma inner_None_iff (x beta : list R) :
  inner x beta = None <-> length x <> length beta.
Proof.
  revert beta. induction x as [|a x IH]; intros [|b beta]; simpl.
  - split; [discriminate | congruence].
  - split; [discriminate | reflexivity].
  - split; [discriminate | reflexivity].
  - specialize (IH beta). destruct (inner x beta).
    + split; [discriminate|]. intros Hn. exfalso.
      assert (length x <> length beta) by congruence.
      apply IH in H. discriminate.
    + split; [|reflexivity]. intros _ Heq.
      injection Heq as Heq. now apply IH in Heq.
Qed.

Lemma matvec_None_iff (m : list (list R)) (beta : list R) :
  matvec m beta = None <->
  Exists (fun row => length row <> length beta) m.
Proof.
  induction m as [|row m IH]; simpl.
  - split; [discriminate | intros H; inversion H].
  - destruct (inner row beta) eqn:Hrow.
    + destruct (matvec m beta).
      * split; [discriminate|]. intros H.
        inversion H as [? ? Hr|? ? Hm]; subst.
        -- apply inner_None_iff in Hr. congruence.
        -- apply IH in Hm. discriminate.
      * split; [|reflexivity]. intros _.
        apply Exists_cons_tl, IH. reflexivity.
    + split; [|reflexivity]. intros _.
      apply Exists_cons_hd, inner_None_iff, Hrow.
Qed.

Lemma matvec_length (m : list (list R)) (beta t : list R) :
  matvec m beta = Some t -> length t = length m.
Proof.
  revert t. induction m as [|row m IH]; simpl; intros t Ht.
  - injection Ht as <-. reflexivity.
  - destruct (inner row beta); [|discriminate].
    destruct (matvec m beta) as [t'|]; [|discriminate].
    injection Ht as <-. simpl. f_equal. now apply IH.
Qed.

Lemma inner_zero_weights (x beta : list R) :
  Forall (fun b => b = 0) beta ->
  length x = length beta ->
  inner x beta = Some 0.
Proof.
  intros Hz. revert x.
  induction Hz as [|b beta Hb _ IH]; intros [|a x] Hlen;
    simpl in *; try discriminate; [reflexivity|].
  rewrite IH by congruence. subst b. f_equal. ring.
Qed.

Lemma lmb_unfold (beta0 : R) (beta : list R) (x : ndarray) :
  lmb beta0 beta x =
  option_map (fun d => ufunc qu (scalar_add beta0 d)) (np_dot x beta).
Proof.
  unfold lmb. destruct (np_dot x beta) as [d|]; [|reflexivity].
  simpl. f_equal. apply (qu_nd_ufunc (scalar_add beta0 d)).
Qed.

(** X10: [lmb] fails exactly on misaligned shapes: on a row when its
    length differs from that of [beta], on a matrix with at least one row
    and [c] columns when [c] differs from the length of [beta], and never
    on a scalar [x]. *)
Theorem lmb_fails_iff (beta0 : R) (beta : list R) :
  (forall x, lmb beta0 beta (Vector x) = None <->
             length x <> length beta) /\
  (forall m c, m <> [] -> Forall (fun row => length row = c) m ->
     (lmb beta0 beta (Matrix m) = None <-> c <> length beta)) /\
  (forall c, lmb beta0 beta (Scalar c) <> None).
Proof.
  split; [|split].
  - intros x. rewrite <- inner_None_iff. unfold lmb. simpl.
    destruct (inner x beta); simpl; split; congruence.
  - intros m c Hne Hc.
    assert (Hm : lmb beta0 beta (Matrix m) = None <-> matvec m beta = None).
    { unfold lmb. simpl. destruct (matvec m beta); simpl; split; congruence. }
    rewrite Hm, matvec_None_iff. split.
    + intros Hex. apply Exists_exists in Hex as [row [Hin Hlen]].
      rewrite Forall_forall in Hc. rewrite <- (Hc row Hin). exact Hlen.
    + intros Hlen. destruct m as [|row m]; [congruence|].
      apply Exists_cons_hd. inversion Hc; subst. exact Hlen.
  - intros c. unfold lmb. simpl. discriminate.
Qed.

Lemma lmb_fails_iff_witness :
  lmb 1 [2; 3; 1] (Matrix [[4; 5]; [6; 7]]) = None.
Proof.
  destruct (lmb_fails_iff 1 [2; 3; 1]) as [_ [Hmat _]].
  apply (Hmat [[4; 5]; [6; 7]] 2%nat).
  - discriminate.
  - repeat constructor.
  - simpl. lia.
Defined.

(** X11: every rate that [lmb] returns is strictly positive. *)
Theorem lmb_positive (beta0 : R) (beta : list R) (x a : ndarray) :
  lmb beta0 beta x = Some a -> ndarray_all (fun r => 0 < r) a.
Proof.
  rewrite lmb_unfold.
  destruct (np_dot x beta) as [d|]; [|discriminate].
  simpl. intros Ha. injection Ha as <-.
  destruct d as [r|v|m]; simpl.
  - apply qu_pos.
  - apply Forall_forall. intros y Hy.
    apply in_map_iff in Hy as [s [<- _]]. apply qu_pos.
  - apply Forall_forall. intros row Hrow.
    apply in_map_iff in Hrow as [r0 [<- _]].
    apply Forall_forall. intros y Hy.
    apply in_map_iff in Hy as [s [<- _]]. apply qu_pos.
Qed.

Lemma lmb_positive_witness :
  exists a,
    lmb 1 [2; 3] (Matrix [[4; 5]; [6; 7]]) = Some a /\
    ndarray_all (fun r => 0 < r) a.
Proof.
  eexists. split; [reflexivity|].
  apply (lmb_positive 1 [2; 3] (Matrix [[4; 5]; [6; 7]])).
  reflexivity.
Defined.

(** X12: the result of [lmb] has one rate per observation: a scalar for a
    row of the design, a vector with as many elements as the matrix has
    rows for a matrix. *)
Theorem lmb_shape (beta0 : R) (beta : list R) (a : ndarray) :
  (forall x, lmb beta0 beta (Vector x) = Some a -> exists r, a = Scalar r) /\
  (forall m, lmb beta0 beta (Matrix m) = Some a ->
             exists v, a = Vector v /\ length v = length m).
Proof.
  split.
  - intros x. rewrite lmb_unfold. simpl.
    destruct (inner x beta) as [s|]; [|discriminate].
    simpl. intros Ha. injection Ha as <-. eauto.
  - intros m. rewrite lmb_unfold. simpl.
    destruct (matvec m beta) as [t|] eqn:Ht; [|discriminate].
    simpl. intros Ha. injection Ha as <-.
    eexists. split; [reflexivity|].
    rewrite !length_map. eapply matvec_length, Ht.
Qed.

Lemma lmb_shape_witness :
  exists a v,
    lmb 1 [2; 3] (Matrix [[4; 5]; [6; 7]]) = Some a /\
    a = Vector v /\ length v = 2%nat.
Proof.
  eexists.
  destruct (lmb_shape 1 [2; 3]
              (qu_nd (scalar_add 1
                 (Vector [4 * 2 + (5 * 3 + 0); 6 * 2 + (7 * 3 + 0)]))))
    as [_ Hmat].
  destruct (Hmat [[4; 5]; [6; 7]]) as [v [Hv Hlen]]; [reflexivity|].
  exists v. split; [reflexivity|]. split; assumption.
Defined.

(** X13: with all weights zero the rate is the baseline [qu beta0],
    whatever the row of the design of matching length. *)
Theorem lmb_zero_weights (beta0 : R) (beta x : list R) :
  Forall (fun b => b = 0) beta ->
  length x = length beta ->
  lmb beta0 beta (Vector x) = Some (Scalar (qu beta0)).
Proof.
  intros Hz Hlen. rewrite lmb_unfold. simpl.
  rewrite (inner_zero_weights _ _ Hz Hlen). simpl.
  now rewrite Rplus_0_r.
Qed.

Lemma lmb_zero_weights_witness :
  lmb 1 [0; 0] (Vector [4; 5]) = Some (Scalar (qu 1)).
Proof.
  apply lmb_zero_weights; [repeat constructor | reflexivity].
Defined.

(** ** Further properties of the path constructors *)

(** X14: [logspace] builds a geometric progression from [base ** start] to
    [base ** stop]: for [num >= 2] and a positive base, each element is the
    previous one times [base ** ((stop - start) / (num - 1))]. *)
Theorem logspace_geometric (start stop base : R) (k : nat) :
  0 < base ->
  length (logspace start stop (S (S k)) base) = S (S k) /\
  nth 0 (logspace start stop (S (S k)) base) 0 = Rpower base start /\
  nth (S k) (logspace start stop (S (S k)) base) 0 = Rpower base stop /\
  (forall i, (i < S k)%nat ->
     nth (S i) (logspace start stop (S (S k)) base) 0 =
     nth i (logspace start stop (S (S k)) base) 0 *
     Rpower base ((stop - start) / INR (S k))).
Proof.
  intros Hb.
  assert (Hk : INR (S k) <> 0) by (apply not_0_INR; lia).
  split; [apply logspace_length|]. split; [|split].
  - rewrite logspace_nth by lia. f_equal. simpl. lra.
  - rewrite logspace_nth by lia. f_equal. field. exact Hk.
  - intros i Hi. rewrite !logspace_nth by lia.
    rewrite <- Rpower_plus. f_equal. rewrite S_INR. lra.
Qed.

Lemma logspace_geometric_witness :
  nth 1 (logspace 0 2 3 10) 0 =
  nth 0 (logspace 0 2 3 10) 0 * Rpower 10 ((2 - 0) / INR 2).
Proof.
  destruct (logspace_geometric 0 2 10 1) as [_ [_ [_ Hstep]]]; [lra|].
  apply Hstep. lia.
Defined.

(** ** Further properties of [qu] in float64 *)

Lemma round_pos_cases (r : R) :
  0 < r -> Binary64.round r = Binary64.Fin r \/
           Binary64.round r = Binary64.PInf.
Proof.
  intros Hr. unfold Binary64.round.
  destruct (Rle_dec Binary64.overflow_threshold r); [now right|].
  destruct (Rle_dec r (- Binary64.overflow_threshold)) as [Hle|]; [|now left].
  exfalso. pose proof overflow_threshold_gt_pow3.
  assert (0 < 3 ^ 600) by (apply pow_lt; lra). lra.
Qed.

Lemma log_pos_arg (r : R) :
  0 < r -> Binary64.log (Binary64.Fin r) = Binary64.Fin (ln r).
Proof.
  intros Hr. unfold Binary64.log.
  destruct (Rlt_dec r 0); [lra|].
  destruct (Req_dec_T r 0); [lra|]. reflexivity.
Qed.

(** On a finite argument [qu] returns a positive finite number or the
    positive infinity. *)
Lemma qu_f64_cases (x : R) :
  (exists r, 0 < r /\ Binary64.qu (Binary64.Fin x) = Binary64.Fin r) \/
  Binary64.qu (Binary64.Fin x) = Binary64.PInf.
Proof.
  pose proof eps_pos as He. pose proof (exp_pos x) as Hx.
  unfold Binary64.qu. rewrite one_plus_eps. unfold Binary64.exp.
  destruct (round_pos_cases (exp x) Hx) as [-> | ->]; [|now right].
  unfold Binary64.add.
  destruct (round_pos_cases (1 + eps + exp x)) as [-> | ->];
    [lra | | now right].
  left. exists (ln (1 + eps + exp x)).
  split; [apply (qu_pos x) | apply log_pos_arg; lra].
Qed.

(** X16: in float64, [qu] never produces a NaN or the negative infinity
    from an argument that is not a NaN: a result that is not finite is the
    positive infinity, and a finite one is positive.  At the infinities,
    [qu(+inf) = +inf] and [qu(-inf) = log(1 + eps)]. *)
Theorem qu_f64_no_nan (z : Binary64.float64) :
  z <> Binary64.NaN ->
  Binary64.qu z <> Binary64.NaN /\
  Binary64.qu z <> Binary64.NInf /\
  (forall r, Binary64.qu z = Binary64.Fin r -> 0 < r) /\
  Binary64.qu Binary64.PInf = Binary64.PInf /\
  Binary64.qu Binary64.NInf = Binary64.Fin (ln (1 + eps)).
Proof.
  intros Hz.
  assert (Hninf : Binary64.qu Binary64.NInf = Binary64.Fin (ln (1 + eps))).
  { unfold Binary64.qu. rewrite one_plus_eps. simpl.
    pose proof eps_pos as He.
    rewrite round_in_range.
    - rewrite Rplus_0_r. apply log_pos_arg. lra.
    - pose proof overflow_threshold_gt_pow3.
      assert (0 < 3 ^ 600) by (apply pow_lt; lra).
      assert (eps < 1).
      { unfold eps. rewrite <- Rinv_1. apply Rinv_lt_contravar.
        - rewrite Rmult_1_l. apply pow_lt. lra.
        - apply Rlt_pow_R1; [lra | lia]. }
      lra. }
  assert (Hpinf : Binary64.qu Binary64.PInf = Binary64.PInf).
  { unfold Binary64.qu. rewrite one_plus_eps. reflexivity. }
  assert (Hln : 0 < ln (1 + eps)).
  { rewrite <- ln_1. pose proof eps_pos. apply ln_increasing; lra. }
  destruct z as [x| | |]; [| | |congruence].
  - destruct (qu_f64_cases x) as [[r [Hr ->]] | ->].
    + repeat split; try discriminate; try assumption.
      intros r' Hr'. injection Hr' as <-. exact Hr.
    + repeat split; try discriminate; assumption.
  - rewrite Hpinf. repeat split; try discriminate; assumption.
  - rewrite Hninf. repeat split; try discriminate; try assumption.
    intros r Hr. injection Hr as <-. exact Hln.
Qed.

Lemma qu_f64_no_nan_witness :
  Binary64.qu (Binary64.Fin 0) <> Binary64.NaN /\
  Binary64.qu (Binary64.Fin 0) <> Binary64.NInf.
Proof.
  destruct (qu_f64_no_nan (Binary64.Fin 0)) as [H1 [H2 _]];
    [discriminate|].
  split; assumption.
Defined.

(** X17: in float64, [qu] is finite for every argument up to 600, however
    negative. *)
Theorem qu_f64_finite_below_600 (z : R) :
  z <= 600 ->
  Binary64.is_finite (Binary64.qu (Binary64.Fin z)) = true.
Proof.
  intros Hz. rewrite (qu_in_range z Hz). reflexivity.
Qed.

Lemma qu_f64_finite_below_600_witness :
  Binary64.is_finite (Binary64.qu (Binary64.Fin (-1000))) = true.
Proof.
  apply qu_f64_finite_below_600. lra.
Defined.

(** X18: in float64, [qu] overflows to the positive infinity for every
    argument from 1000 on. *)
Theorem qu_f64_overflow_above_1000 (z : R) :
  1000 <= z ->
  Binary64.qu (Binary64.Fin z) = Binary64.PInf.
Proof.
  intros Hz.
  assert (Hexp : Binary64.overflow_threshold <= exp z).
  { apply Rle_trans with (2 ^ 1024); [apply overflow_threshold_le_pow|].
    apply Rle_trans with (exp 1000); [apply exp_1000_ge|].
    destruct Hz as [Hz| <-]; [left; now apply exp_increasing | right; reflexivity]. }
  unfold Binary64.qu. rewrite one_plus_eps.
  unfold Binary64.exp, Binary64.round.
  destruct (Rle_dec Binary64.overflow_threshold (exp z)); [|contradiction].
  reflexivity.
Qed.

Lemma qu_f64_overflow_above_1000_witness :
  Binary64.qu (Binary64.Fin 2000) = Binary64.PInf.
Proof.
  apply qu_f64_overflow_above_1000. lra.
Defined.

(** * Rounded float64 arithmetic *)

Lemma ln_2_pos : 0 < ln 2.
Proof. rewrite <- ln_1. apply ln_increasing; lra. Qed.

Lemma bpow_exp (e : Z) : bpow e = exp (IZR e * ln 2).
Proof.
  unfold bpow. rewrite powerRZ_Rpower by lra. reflexivity.
Qed.

Lemma bpow_pos (e : Z) : 0 < bpow e.
Proof. rewrite bpow_exp. apply exp_pos. Qed.

Lemma bpow_add (a b : Z) : bpow (a + b) = bpow a * bpow b.
Proof.
  rewrite !bpow_exp, <- exp_plus, plus_IZR. f_equal. ring.
Qed.

Lemma bpow_lt (a b : Z) : (a < b)%Z -> bpow a < bpow b.
Proof.
  intros H. rewrite !bpow_exp. apply exp_increasing.
  apply Rmult_lt_compat_r; [apply ln_2_pos | now apply IZR_lt].
Qed.

Lemma bpow_le (a b : Z) : (a <= b)%Z -> bpow a <= bpow b.
Proof.
  intros H. destruct (Z.eq_dec a b) as [->|Hne]; [lra|].
  left. apply bpow_lt. lia.
Qed.

Lemma bpow_lt_inv (a b : Z) : bpow a < bpow b -> (a < b)%Z.
Proof.
  intros H. destruct (Z_lt_le_dec a b) as [Hlt|Hle]; [exact Hlt|].
  apply bpow_le in Hle. lra.
Qed.

Lemma bpow_0 : bpow 0 = 1.
Proof. reflexivity. Qed.

Lemma bpow_opp (e : Z) : bpow (- e) = / bpow e.
Proof.
  apply Rmult_eq_reg_r with (bpow e); [|pose proof (bpow_pos e); lra].
  rewrite <- bpow_add, Rinv_l by (pose proof (bpow_pos e); lra).
  now replace (- e + e)%Z with 0%Z by lia.
Qed.

Lemma bpow_nat (n : nat) : bpow (Z.of_nat n) = 2 ^ n.
Proof.
  unfold bpow. symmetry. apply pow_powerRZ.
Qed.

Lemma bpow_IZR (k : Z) : (0 <= k)%Z -> bpow k = IZR (2 ^ k).
Proof.
  intros Hk. rewrite <- (Z2Nat.id k Hk) at 1.
  rewrite bpow_nat, pow_IZR. now rewrite Z2Nat.id.
Qed.

Lemma ln_bpow (e : Z) : ln (bpow e) = IZR e * ln 2.
Proof. rewrite bpow_exp. apply ln_exp. Qed.

(** ** The integer part *)
Lemma Int_part_bounds (t : R) : IZR (Int_part t) <= t < IZR (Int_part t) + 1.
Proof. pose proof (base_Int_part t). lra. Qed.

Lemma Int_part_unique (t : R) (n : Z) :
  IZR n <= t < IZR n + 1 -> Int_part t = n.
Proof. intros H. symmetry. apply Int_part_spec. lra. Qed.

Lemma Int_part_le (s t : R) : s <= t -> (Int_part s <= Int_part t)%Z.
Proof.
  intros H. pose proof (Int_part_bounds s). pose proof (Int_part_bounds t).
  apply Z.lt_succ_r. apply lt_IZR. rewrite succ_IZR. lra.
Qed.

(** ** The binary exponent *)
Lemma mag2_spec (x : R) : 0 < x -> bpow (mag2 x) <= x < bpow (mag2 x + 1).
Proof.
  intros Hx. unfold mag2. rewrite Rabs_pos_eq by lra.
  pose proof (Int_part_bounds (ln x / ln 2)) as [Hlo Hhi].
  set (e := Int_part (ln x / ln 2)) in *.
  pose proof ln_2_pos as H2.
  rewrite !bpow_exp, plus_IZR.
  rewrite <- (exp_ln x Hx) at 1 2.
  assert (Hq : ln x = ln x / ln 2 * ln 2) by (field; lra).
  split.
  - destruct Hlo as [Hlo|Hlo].
    + left. apply exp_increasing. rewrite Hq.
      apply Rmult_lt_compat_r; assumption.
    + right. f_equal. rewrite Hq at 1. now rewrite <- Hlo.
  - apply exp_increasing. rewrite Hq at 1.
    apply Rmult_lt_compat_r; assumption.
Qed.

Lemma mag2_unique (x : R) (e : Z) :
  bpow e <= x < bpow (e + 1) -> mag2 x = e.
Proof.
  intros [Hlo Hhi].
  assert (Hx : 0 < x) by (pose proof (bpow_pos e); lra).
  unfold mag2. rewrite Rabs_pos_eq by lra.
  apply Int_part_unique.
  pose proof ln_2_pos as H2.
  assert (Hl : IZR e * ln 2 <= ln x).
  { rewrite <- ln_bpow. destruct Hlo as [Hlo|Hlo].
    - left. apply ln_increasing; [apply bpow_pos | exact Hlo].
    - right. now rewrite Hlo. }
  assert (Hh : ln x < (IZR e + 1) * ln 2).
  { rewrite <- plus_IZR, <- ln_bpow. apply ln_increasing; assumption. }
  split.
  - apply Rmult_le_reg_r with (ln 2); [exact H2|].
    replace (ln x / ln 2 * ln 2) with (ln x) by (field; lra). exact Hl.
  - apply Rmult_lt_reg_r with (ln 2); [exact H2|].
    replace (ln x / ln 2 * ln 2) with (ln x) by (field; lra). exact Hh.
Qed.

Lemma mag2_le (x y : R) : 0 < x -> x <= y -> (mag2 x <= mag2 y)%Z.
Proof.
  intros Hx Hxy.
  pose proof (mag2_spec x Hx) as [Hx1 _].
  pose proof (mag2_spec y ltac:(lra)) as [_ Hy2].
  assert (bpow (mag2 x) < bpow (mag2 y + 1)) by lra.
  apply bpow_lt_inv in H. lia.
Qed.

(** ** Rounding to an integer *)
Lemma rne_cases (t : R) :
  (rne t = Int_part t /\ t - IZR (Int_part t) <= 1 / 2) \/
  (rne t = (Int_part t + 1)%Z /\ 1 / 2 <= t - IZR (Int_part t)).
Proof.
  unfold rne. cbv zeta.
  destruct (Rlt_dec (t - IZR (Int_part t)) (1 / 2)); [left; split; [reflexivity | lra]|].
  destruct (Rlt_dec (1 / 2) (t - IZR (Int_part t))); [right; split; [reflexivity | lra]|].
  destruct (Z.even (Int_part t)); [left | right]; split; try reflexivity; lra.
Qed.

Lemma rne_near (m : Z) (t : R) :
  - (1 / 2) < t - IZR m < 1 / 2 -> rne t = m.
Proof.
  intros [Hlo Hhi]. unfold rne. cbv zeta.
  destruct (Rle_lt_dec (IZR m) t) as [Hge|Hlt].
  - rewrite (Int_part_unique t m) by lra.
    destruct (Rlt_dec (t - IZR m) (1 / 2)); [reflexivity | lra].
  - rewrite (Int_part_unique t (m - 1)) by (rewrite minus_IZR; lra).
    rewrite minus_IZR.
    destruct (Rlt_dec (t - (IZR m - 1)) (1 / 2)); [lra|].
    destruct (Rlt_dec (1 / 2) (t - (IZR m - 1))); [f_equal; lia | lra].
Qed.

Lemma rne_IZR (n : Z) : rne (IZR n) = n.
Proof. apply rne_near. lra. Qed.

Lemma rne_le_int (t : R) (k : Z) : t <= IZR k -> (rne t <= k)%Z.
Proof.
  intros H. pose proof (Int_part_bounds t) as [Hlo Hhi].
  destruct (Req_dec t (IZR k)) as [->|Hne]; [rewrite rne_IZR; lia|].
  assert (Int_part t < k)%Z by (apply lt_IZR; lra).
  destruct (rne_cases t) as [[-> _]|[-> _]]; lia.
Qed.

Lemma rne_ge_int (t : R) (k : Z) : IZR k <= t -> (k <= rne t)%Z.
Proof.
  intros H. pose proof (Int_part_bounds t) as [Hlo Hhi].
  assert (k <= Int_part t)%Z.
  { apply Z.lt_succ_r. apply lt_IZR. rewrite succ_IZR. lra. }
  destruct (rne_cases t) as [[-> _]|[-> _]]; lia.
Qed.

Lemma rne_mono (s t : R) : s <= t -> (rne s <= rne t)%Z.
Proof.
  intros H. pose proof (Int_part_le s t H) as Hfl.
  destruct (Z.eq_dec (Int_part s) (Int_part t)) as [Heq|Hne].
  - unfold rne. cbv zeta. rewrite Heq.
    destruct (Rlt_dec (s - IZR (Int_part t)) (1 / 2));
      destruct (Rlt_dec (t - IZR (Int_part t)) (1 / 2)); try lia; try lra.
    + destruct (Rlt_dec (1 / 2) (t - IZR (Int_part t))); [lia|].
      destruct (Z.even (Int_part t)); lia.
    + destruct (Rlt_dec (1 / 2) (s - IZR (Int_part t)));
        destruct (Rlt_dec (1 / 2) (t - IZR (Int_part t))); try lia; try lra.
      destruct (Z.even (Int_part t)); lia.
  - destruct (rne_cases s) as [[-> _]|[-> _]];
      destruct (rne_cases t) as [[-> _]|[-> _]]; lia.
Qed.


(** ** Rounding to a float *)
Lemma ulp_pos (x : R) : 0 < ulp x.
Proof. apply bpow_pos. Qed.

Lemma rnd_0 : rnd 0 = 0.
Proof.
  unfold rnd. unfold Rdiv. rewrite Rmult_0_l.
  rewrite rne_IZR. apply Rmult_0_l.
Qed.

Lemma rnd_nonneg (x : R) : 0 <= x -> 0 <= rnd x.
Proof.
  intros Hx. unfold rnd. pose proof (ulp_pos x) as Hu.
  apply Rmult_le_pos; [|lra].
  apply IZR_le. apply rne_ge_int.
  apply Rmult_le_pos; [lra|]. left. now apply Rinv_0_lt_compat.
Qed.

Lemma cexp_of_mag (x : R) (e : Z) :
  bpow e <= x < bpow (e + 1) -> cexp x = Z.max (e - 52) (-1074).
Proof.
  intros H. unfold cexp. now rewrite (mag2_unique x e H).
Qed.

(** A number [m * 2^c] with [m] below [2^53] and [c] at least [-1074]
    is a floating-point number. *)
Lemma rnd_grid (m c : Z) :
  (0 <= m < 2 ^ 53)%Z -> (-1074 <= c)%Z ->
  rnd (IZR m * bpow c) = IZR m * bpow c.
Proof.
  intros [Hm0 Hm] Hc.
  destruct (Z.eq_dec m 0) as [->|Hne].
  { rewrite Rmult_0_l. apply rnd_0. }
  set (x := IZR m * bpow c).
  assert (Hx : 0 < x).
  { apply Rmult_lt_0_compat; [apply IZR_lt; lia | apply bpow_pos]. }
  pose proof (mag2_spec x Hx) as [Hlo Hhi].
  assert (Hlt : x < bpow (53 + c)).
  { unfold x. rewrite bpow_add, (bpow_IZR 53) by lia.
    apply Rmult_lt_compat_r; [apply bpow_pos | apply IZR_lt; lia]. }
  assert (He : (mag2 x < 53 + c)%Z) by (apply bpow_lt_inv; lra).
  assert (Hce : (cexp x <= c)%Z) by (unfold cexp; lia).
  unfold rnd, ulp.
  set (k := (c - cexp x)%Z).
  pose proof (bpow_pos (cexp x)) as Hu.
  assert (Hbc : bpow c = bpow k * bpow (cexp x)).
  { rewrite <- bpow_add. f_equal. unfold k. lia. }
  assert (Hq : x / bpow (cexp x) = IZR (m * 2 ^ k)).
  { rewrite mult_IZR, <- (bpow_IZR k) by (unfold k; lia).
    fold x. unfold x at 1. rewrite Hbc. field. lra. }
  rewrite Hq, rne_IZR, <- Hq. field. lra.
Qed.

Lemma rnd_bpow (k : Z) : (-1074 <= k)%Z -> rnd (bpow k) = bpow k.
Proof.
  intros Hk. rewrite <- (Rmult_1_l (bpow k)).
  apply (rnd_grid 1 k); lia.
Qed.

(** Rounding does not cross a power of two that is a multiple of the
    unit in the last place. *)
Lemma rnd_le_bpow (x : R) (k : Z) :
  x <= bpow k -> (cexp x <= k)%Z -> rnd x <= bpow k.
Proof.
  intros Hx Hk. unfold rnd, ulp.
  pose proof (bpow_pos (cexp x)) as Hu.
  replace (bpow k) with (IZR (2 ^ (k - cexp x)) * bpow (cexp x)).
  2:{ rewrite <- bpow_IZR, <- bpow_add by lia. f_equal. lia. }
  apply Rmult_le_compat_r; [lra|].
  apply IZR_le, rne_le_int.
  rewrite <- bpow_IZR by lia.
  apply Rmult_le_reg_r with (bpow (cexp x)); [exact Hu|].
  rewrite <- bpow_add. replace (k - cexp x + cexp x)%Z with k by lia.
  unfold Rdiv. rewrite Rmult_assoc, Rinv_l, Rmult_1_r by lra. exact Hx.
Qed.

Lemma rnd_ge_bpow (x : R) (k : Z) :
  bpow k <= x -> (cexp x <= k)%Z -> bpow k <= rnd x.
Proof.
  intros Hx Hk. unfold rnd, ulp.
  pose proof (bpow_pos (cexp x)) as Hu.
  replace (bpow k) with (IZR (2 ^ (k - cexp x)) * bpow (cexp x)).
  2:{ rewrite <- bpow_IZR, <- bpow_add by lia. f_equal. lia. }
  apply Rmult_le_compat_r; [lra|].
  apply IZR_le, rne_ge_int.
  rewrite <- bpow_IZR by lia.
  apply Rmult_le_reg_r with (bpow (cexp x)); [exact Hu|].
  rewrite <- bpow_add. replace (k - cexp x + cexp x)%Z with k by lia.
  unfold Rdiv. rewrite Rmult_assoc, Rinv_l, Rmult_1_r by lra. exact Hx.
Qed.

Lemma cexp_le (x y : R) : 0 < x -> x <= y -> (cexp x <= cexp y)%Z.
Proof.
  intros Hx Hxy. pose proof (mag2_le x y Hx Hxy). unfold cexp. lia.
Qed.

(** Rounding is monotone on the nonnegative numbers. *)
Lemma rnd_mono (x y : R) : 0 <= x -> x <= y -> rnd x <= rnd y.
Proof.
  intros Hx Hxy.
  destruct Hx as [Hx|<-]; [|rewrite rnd_0; apply rnd_nonneg; lra].
  pose proof (cexp_le x y Hx Hxy) as Hc.
  destruct (Z.eq_dec (cexp x) (cexp y)) as [Heq|Hne].
  - unfold rnd, ulp. rewrite Heq.
    pose proof (bpow_pos (cexp y)) as Hu.
    apply Rmult_le_compat_r; [lra|].
    apply IZR_le, rne_mono.
    unfold Rdiv. apply Rmult_le_compat_r; [|exact Hxy].
    left. now apply Rinv_0_lt_compat.
  - assert (Hlt : (cexp x < cexp y)%Z) by lia.
    assert (Hy : 0 < y) by lra.
    pose proof (mag2_spec x Hx) as [_ Hx2].
    pose proof (mag2_spec y Hy) as [Hy1 _].
    assert (Hm : (mag2 x < mag2 y)%Z) by (unfold cexp in *; lia).
    assert (Hcy : (cexp y <= mag2 y)%Z) by (unfold cexp in *; lia).
    apply Rle_trans with (bpow (mag2 y)).
    + apply rnd_le_bpow; [|lia].
      apply Rle_trans with (bpow (mag2 x + 1)); [lra|].
      apply bpow_le. lia.
    + apply rnd_ge_bpow; assumption.
Qed.

Lemma rnd_idem (x : R) : 0 <= x -> rnd (rnd x) = rnd x.
Proof.
  intros [Hx|<-]; [|now rewrite !rnd_0].
  pose proof (mag2_spec x Hx) as [_ Hhi].
  pose proof (bpow_pos (cexp x)) as Hu.
  assert (Hc : (-1074 <= cexp x)%Z) by (unfold cexp; lia).
  assert (Hm0 : (0 <= rne (x / ulp x))%Z).
  { apply rne_ge_int. apply Rmult_le_pos; [lra|].
    left. apply Rinv_0_lt_compat, ulp_pos. }
  assert (Hm1 : (rne (x / ulp x) <= 2 ^ 53)%Z).
  { apply rne_le_int. rewrite <- bpow_IZR by lia. unfold ulp.
    apply Rmult_le_reg_r with (bpow (cexp x)); [exact Hu|].
    unfold Rdiv. rewrite Rmult_assoc, Rinv_l, Rmult_1_r by lra.
    rewrite <- bpow_add.
    apply Rle_trans with (bpow (mag2 x + 1)); [lra|].
    apply bpow_le. unfold cexp. lia. }
  unfold rnd at 2. fold (ulp x). unfold rnd at 2.
  destruct (Z.eq_dec (rne (x / ulp x)) (2 ^ 53)) as [Heq|Hne].
  - rewrite Heq. unfold ulp. rewrite <- bpow_IZR, <- bpow_add by lia.
    apply rnd_bpow. lia.
  - apply rnd_grid; lia.
Qed.





(** Rounding inside a binade: a number within half a unit of [m * ulp]
    rounds to it. *)
Lemma rnd_local (x : R) (e m : Z) :
  (-1022 <= e)%Z ->
  bpow e <= x < bpow (e + 1) ->
  - (1 / 2) < x / bpow (e - 52) - IZR m < 1 / 2 ->
  rnd x = IZR m * bpow (e - 52).
Proof.
  intros He Hx Hm. unfold rnd, ulp.
  rewrite (cexp_of_mag x e Hx), Z.max_l by lia.
  now rewrite (rne_near m).
Qed.

(** ** [qu] in rounded float64 arithmetic *)

Lemma eps_bpow : eps = bpow (-52).
Proof.
  unfold eps. change (bpow (-52)) with (bpow (Z.opp 52)).
  rewrite bpow_opp. f_equal.
Qed.

Lemma bpow_1024_big : 4 < bpow 1024.
Proof.
  replace 4 with (bpow 2) by (unfold bpow; simpl; lra).
  apply bpow_lt. lia.
Qed.

Lemma round_cases (x : R) :
  0 <= x ->
  (Float64.round x = Float64.Fin (rnd x) /\ rnd x < bpow 1024) \/
  (Float64.round x = Float64.PInf /\ bpow 1024 <= rnd x).
Proof.
  intros Hx. unfold Float64.round. cbv zeta.
  destruct (Rle_dec (bpow 1024) (rnd x)); [right; split; [reflexivity | assumption]|].
  left. split; [|lra].
  destruct (Rle_dec (rnd x) (- bpow 1024)) as [Hle|]; [|reflexivity].
  exfalso. pose proof (rnd_nonneg x Hx). pose proof bpow_1024_big. lra.
Qed.

Lemma round_fin (x : R) :
  0 <= x -> rnd x < bpow 1024 -> Float64.round x = Float64.Fin (rnd x).
Proof.
  intros Hx Hlt. destruct (round_cases x Hx) as [[H _]|[_ H]]; [exact H | lra].
Qed.

Lemma rnd_one_plus_eps : rnd (1 + eps) = 1 + eps.
Proof.
  rewrite eps_bpow.
  replace (1 + bpow (-52)) with (IZR (2 ^ 52 + 1) * bpow (-52)).
  - apply rnd_grid; lia.
  - rewrite plus_IZR, <- (bpow_IZR 52) by lia.
    rewrite Rmult_plus_distr_r, <- bpow_add. simpl (52 + -52)%Z.
    rewrite bpow_0. lra.
Qed.

Lemma eps_lt_half : eps < 1 / 2.
Proof.
  rewrite eps_bpow.
  replace (1 / 2) with (bpow (-1)) by (unfold bpow; simpl; lra).
  apply bpow_lt. lia.
Qed.

Lemma eps_lt_1 : eps < 1.
Proof. pose proof eps_lt_half. lra. Qed.

Lemma f64_one_plus_eps :
  Float64.add (Float64.Fin 1) Float64.eps = Float64.Fin (1 + eps).
Proof.
  unfold Float64.add, Float64.eps. fold eps.
  pose proof eps_pos. pose proof eps_lt_1. pose proof bpow_1024_big.
  rewrite round_fin; [now rewrite rnd_one_plus_eps | lra | rewrite rnd_one_plus_eps; lra].
Qed.


Lemma log_arg_ge (z : R) : 1 + eps <= log_arg z.
Proof.
  unfold log_arg. rewrite <- rnd_one_plus_eps at 1.
  pose proof eps_pos. pose proof (rnd_nonneg (exp z) (Rlt_le _ _ (exp_pos z))).
  apply rnd_mono; lra.
Qed.

Lemma log_arg_mono (z1 z2 : R) : z1 <= z2 -> log_arg z1 <= log_arg z2.
Proof.
  intros Hz. unfold log_arg.
  pose proof eps_pos.
  assert (He : exp z1 <= exp z2).
  { destruct Hz as [Hz| ->]; [left; now apply exp_increasing | lra]. }
  pose proof (rnd_nonneg (exp z1) (Rlt_le _ _ (exp_pos z1))).
  pose proof (rnd_mono (exp z1) (exp z2) (Rlt_le _ _ (exp_pos z1)) He).
  apply rnd_mono; lra.
Qed.

Lemma log_arg_ge_exp (z : R) : rnd (exp z) <= log_arg z.
Proof.
  unfold log_arg.
  pose proof (rnd_nonneg (exp z) (Rlt_le _ _ (exp_pos z))) as Hy.
  rewrite <- (rnd_idem (exp z)) at 1 by (left; apply exp_pos).
  pose proof eps_pos. apply rnd_mono; lra.
Qed.

Lemma log_arg_idem (z : R) : rnd (log_arg z) = log_arg z.
Proof.
  unfold log_arg. apply rnd_idem.
  pose proof eps_pos. pose proof (rnd_nonneg (exp z) (Rlt_le _ _ (exp_pos z))).
  lra.
Qed.

Lemma ln_lt_self (x : R) : 0 < x -> ln x < x.
Proof.
  intros Hx. rewrite <- (ln_exp x) at 2.
  apply ln_increasing; [exact Hx|].
  pose proof (exp_ineq1 x). lra.
Qed.

(** [qu] on a finite argument: the positive infinity when the argument of
    the logarithm overflows, the rounded logarithm otherwise. *)
Lemma f64_qu_cases (z : R) :
  (Float64.qu (Float64.Fin z) = Float64.PInf /\ bpow 1024 <= log_arg z) \/
  (Float64.qu (Float64.Fin z) = Float64.Fin (rnd (ln (log_arg z))) /\
   log_arg z < bpow 1024).
Proof.
  pose proof eps_pos as He. pose proof (exp_pos z) as Hz.
  pose proof (rnd_nonneg (exp z) (Rlt_le _ _ Hz)) as Hy.
  pose proof (log_arg_ge z) as Hs. pose proof (log_arg_ge_exp z) as Hsy.
  unfold Float64.qu. rewrite f64_one_plus_eps. unfold Float64.exp.
  destruct (round_cases (exp z)) as [[-> Hfin]|[-> Hinf]]; [lra| |].
  - unfold Float64.add.
    destruct (round_cases (1 + eps + rnd (exp z))) as [[-> Hfin2]|[-> Hinf2]];
      [lra| |].
    + right. fold (log_arg z) in *. split; [|exact Hfin2].
      unfold Float64.log.
      destruct (Rlt_dec (log_arg z) 0); [lra|].
      destruct (Req_dec_T (log_arg z) 0); [lra|].
      apply round_fin.
      * rewrite <- ln_1. left. apply ln_increasing; lra.
      * apply Rle_lt_trans with (log_arg z); [|exact Hfin2].
        rewrite <- (log_arg_idem z) at 2.
        apply rnd_mono.
        -- rewrite <- ln_1. left. apply ln_increasing; lra.
        -- left. apply ln_lt_self. lra.
    + left. split; [reflexivity | exact Hinf2].
  - left. split; [reflexivity | lra].
Qed.

Lemma ln_one_plus_eps_ge : bpow (-53) <= ln (1 + eps).
Proof.
  pose proof eps_pos as He. pose proof eps_lt_1 as H1.
  assert (Hh : bpow (-53) = eps / 2).
  { rewrite eps_bpow. replace (-52)%Z with (-53 + 1)%Z by lia.
    rewrite bpow_add. replace (bpow 1) with 2 by (unfold bpow; simpl; lra).
    field. }
  rewrite Hh. rewrite <- (ln_exp (eps / 2)).
  left. apply ln_increasing; [apply exp_pos|].
  (* exp y < 1 + 2 y for 0 < y <= 1/2, from exp (- y) > 1 - y *)
  set (y := eps / 2). assert (Hy : 0 < y < 1 / 2) by (unfold y; lra).
  replace (1 + eps) with (1 + 2 * y) by (unfold y; lra).
  assert (Hm : 1 - y < exp (- y)).
  { pose proof (exp_ineq1 (- y)). lra. }
  assert (Hinv : exp y = / exp (- y)).
  { rewrite exp_Ropp, Rinv_inv. reflexivity. }
  rewrite Hinv.
  apply Rlt_trans with (/ (1 - y)).
  - apply Rinv_lt_contravar; [|exact Hm].
    apply Rmult_lt_0_compat; [lra | apply exp_pos].
  - apply Rmult_lt_reg_r with (1 - y); [lra|].
    rewrite Rinv_l by lra. nra.
Qed.

Lemma f64_qu_pos_value (z : R) : bpow (-53) <= rnd (ln (log_arg z)).
Proof.
  rewrite <- (rnd_bpow (-53)) at 1 by lia.
  pose proof (log_arg_ge z). pose proof eps_pos.
  apply rnd_mono; [left; apply bpow_pos|].
  apply Rle_trans with (ln (1 + eps)); [apply ln_one_plus_eps_ge|].
  destruct H as [H|H]; [left; apply ln_increasing; lra | rewrite H; lra].
Qed.

Lemma exp_50_ge : bpow 54 <= exp 50.
Proof.
  replace 50 with (INR 100 * (1 / 2)).
  2:{ rewrite INR_IZR_INZ.
      change (IZR (Z.of_nat 100)) with (IZR 100). lra. }
  rewrite exp_INR_mult.
  apply Rle_trans with ((3 / 2) ^ 100).
  - apply Rmult_le_reg_r with (2 ^ 100); [apply pow_lt; lra|].
    rewrite <- Rpow_mult_distr.
    replace (3 / 2 * 2) with 3 by lra.
    rewrite (bpow_IZR 54) by lia.
    rewrite !pow_IZR, <- mult_IZR. apply IZR_le.
    apply Z.leb_le. vm_compute. reflexivity.
  - apply pow_incr. split; [lra|].
    left. replace (3 / 2) with (1 + 1 / 2) by lra.
    apply exp_ineq1. lra.
Qed.

Lemma exp_below_m50 (z : R) : z <= -50 -> exp z <= bpow (-54).
Proof.
  intros Hz.
  apply Rle_trans with (/ exp 50).
  - rewrite <- exp_Ropp.
    destruct Hz as [Hz|Hz]; [left; apply exp_increasing; lra | right; f_equal; lra].
  - change (bpow (-54)) with (bpow (Z.opp 54)).
    rewrite bpow_opp.
    apply Rinv_le_contravar; [apply bpow_pos | apply exp_50_ge].
Qed.

(** Below -50 the exponential is absorbed by [1 + eps]. *)
Lemma log_arg_absorbed (z : R) : z <= -50 -> log_arg z = 1 + eps.
Proof.
  intros Hz. unfold log_arg.
  set (y := rnd (exp z)).
  assert (Hy0 : 0 <= y) by (apply rnd_nonneg; left; apply exp_pos).
  assert (Hy1 : y <= bpow (-54)).
  { unfold y. rewrite <- (rnd_bpow (-54)) by lia.
    apply rnd_mono; [left; apply exp_pos | now apply exp_below_m50]. }
  assert (H54 : bpow (-54) = eps / 4).
  { rewrite eps_bpow. replace (-52)%Z with (-54 + 2)%Z by lia.
    rewrite bpow_add. replace (bpow 2) with 4 by (unfold bpow; simpl; lra).
    field. }
  pose proof eps_pos as He. pose proof eps_lt_half as He1.
  rewrite (rnd_local (1 + eps + y) 0 (2 ^ 52 + 1)).
  - simpl (0 - 52)%Z. rewrite plus_IZR, <- (bpow_IZR 52) by lia.
    rewrite Rmult_plus_distr_r, <- bpow_add. simpl (52 + -52)%Z.
    rewrite bpow_0, <- eps_bpow. ring.
  - lia.
  - rewrite bpow_0. simpl (0 + 1)%Z.
    replace (bpow 1) with 2 by (unfold bpow; simpl; lra). lra.
  - simpl (0 - 52)%Z. rewrite <- eps_bpow.
    rewrite plus_IZR, <- (bpow_IZR 52) by lia.
    assert (Hinv : bpow 52 = / eps).
    { rewrite eps_bpow. change (bpow (-52)) with (bpow (Z.opp 52)).
      rewrite bpow_opp, Rinv_inv. reflexivity. }
    rewrite Hinv.
    replace ((1 + eps + y) / eps - (/ eps + 1)) with (y / eps) by (field; lra).
    split.
    + apply Rlt_le_trans with 0; [lra|].
      apply Rmult_le_pos; [lra | left; now apply Rinv_0_lt_compat].
    + apply Rle_lt_trans with (eps / 4 / eps); [|field_simplify; lra].
      apply Rmult_le_compat_r; [left; now apply Rinv_0_lt_compat | lra].
Qed.

Lemma f64_qu_plateau (z : R) :
  z <= -50 ->
  Float64.qu (Float64.Fin z) = Float64.Fin (rnd (ln (1 + eps))).
Proof.
  intros Hz. pose proof (log_arg_absorbed z Hz) as Ha.
  destruct (f64_qu_cases z) as [[_ Hinf]|[-> _]].
  - rewrite Ha in Hinf. pose proof bpow_1024_big. pose proof eps_lt_1. lra.
  - now rewrite Ha.
Qed.

(** C2, counterexample: in float64 [qu] is not strictly increasing: below
    -50 the exponential is absorbed by [1 + eps], and [qu] takes the same
    value at -100 and at -50. *)
Lemma f64_qu_not_strictly_increasing :
  -100 < -50 /\
  Float64.qu (Float64.Fin (-100)) = Float64.qu (Float64.Fin (-50)) /\
  ~ Float64.lt (Float64.qu (Float64.Fin (-100)))
               (Float64.qu (Float64.Fin (-50))).
Proof.
  split; [lra|].
  rewrite !f64_qu_plateau by lra.
  split; [reflexivity|]. simpl. lra.
Qed.

(** C2, amended: in float64, [qu z] is strictly positive (a positive
    number or the positive infinity) for every finite [z], and [qu] is
    nondecreasing: [z1 <= z2] gives [qu z1 <= qu z2]. *)
Theorem f64_qu_positive_nondecreasing :
  (forall z, Float64.lt (Float64.Fin 0) (Float64.qu (Float64.Fin z))) /\
  (forall z1 z2, z1 <= z2 ->
     Float64.le (Float64.qu (Float64.Fin z1)) (Float64.qu (Float64.Fin z2))).
Proof.
  split.
  - intros z. destruct (f64_qu_cases z) as [[-> _]|[-> _]]; simpl; [exact I|].
    pose proof (f64_qu_pos_value z). pose proof (bpow_pos (-53)). lra.
  - intros z1 z2 Hz. pose proof (log_arg_mono z1 z2 Hz) as Hm.
    pose proof (log_arg_ge z1) as H1. pose proof eps_pos as He.
    destruct (f64_qu_cases z2) as [[-> _]|[-> Hfin2]].
    + destruct (f64_qu_cases z1) as [[-> _]|[-> _]]; simpl; exact I.
    + destruct (f64_qu_cases z1) as [[_ Hinf1]|[-> _]]; [lra|].
      simpl. apply rnd_mono.
      * rewrite <- ln_1. left. apply ln_increasing; lra.
      * destruct Hm as [Hm|Hm]; [left; apply ln_increasing; lra | rewrite Hm; lra].
Qed.

Lemma f64_qu_positive_nondecreasing_witness :
  Float64.lt (Float64.Fin 0) (Float64.qu (Float64.Fin 0)) /\
  Float64.le (Float64.qu (Float64.Fin 0)) (Float64.qu (Float64.Fin 1)).
Proof.
  destruct f64_qu_positive_nondecreasing as [Hpos Hmono].
  split; [apply Hpos | apply Hmono; lra].
Defined.

(** ** [qu] against the identity *)






















(** ** The penalty in rounded float64 arithmetic *)




Lemma round_rounded (x : R) : 0 <= x -> rounded_val (Float64.round x).
Proof.
  intros Hx. destruct (round_cases x Hx) as [[-> Hfin]|[-> _]]; [|now left].
  right. exists (rnd x). repeat split; auto using rnd_nonneg, rnd_idem.
Qed.

Lemma rounded_nonneg (a : Float64.float64) : rounded_val a -> nonneg_val a.
Proof.
  intros [->|[x [-> [Hx _]]]]; [now left | right; eauto].
Qed.

Lemma round_int (n : Z) :
  (0 <= n < 2 ^ 53)%Z -> Float64.round (IZR n) = Float64.Fin (IZR n).
Proof.
  intros Hn.
  assert (Hr : rnd (IZR n) = IZR n).
  { rewrite <- (Rmult_1_r (IZR n)), <- bpow_0. apply rnd_grid; lia. }
  rewrite round_fin; [now rewrite Hr | apply IZR_le; lia | rewrite Hr].
  apply Rlt_trans with (IZR (2 ^ 53)); [apply IZR_lt; lia|].
  rewrite <- (bpow_IZR 53) by lia. apply bpow_lt. lia.
Qed.

Lemma round_0 : Float64.round 0 = Float64.Fin 0.
Proof. apply (round_int 0). lia. Qed.

Lemma round_rounded_id (x : R) :
  0 <= x -> rnd x = x -> x < bpow 1024 ->
  Float64.round x = Float64.Fin x.
Proof.
  intros H0 Hr Hlt. rewrite round_fin; [now rewrite Hr | exact H0 | now rewrite Hr].
Qed.

Lemma add_nonneg_rounded (a b : Float64.float64) :
  nonneg_val a -> nonneg_val b -> rounded_val (Float64.add a b).
Proof.
  intros [->|[x [-> Hx]]] [->|[y [-> Hy]]]; simpl; try (now left).
  apply round_rounded. lra.
Qed.

Lemma add_fin_inv (a b : Float64.float64) :
  finite_val (Float64.add a b) -> finite_val a /\ finite_val b.
Proof.
  unfold finite_val.
  destruct a, b; simpl; intros [x Hx]; try discriminate; eauto.
Qed.

Lemma fold_add_fin_inv (l : list Float64.float64) (acc : Float64.float64) :
  finite_val (fold_left Float64.add l acc) ->
  finite_val acc /\ Forall finite_val l.
Proof.
  revert acc. induction l as [|a l IH]; simpl; intros acc H.
  - split; [exact H | constructor].
  - apply IH in H as [Hacc Hl].
    apply add_fin_inv in Hacc as [Hacc Ha].
    split; [exact Hacc | now constructor].
Qed.

Lemma fold_add_rounded (l : list Float64.float64) (acc : Float64.float64) :
  rounded_val acc -> Forall nonneg_val l ->
  rounded_val (fold_left Float64.add l acc).
Proof.
  intros Hacc Hl. revert acc Hacc.
  induction Hl as [|a l Ha _ IH]; simpl; intros acc Hacc; [exact Hacc|].
  apply IH. apply add_nonneg_rounded; [now apply rounded_nonneg | exact Ha].
Qed.

Lemma rounded_zero : rounded_val (Float64.Fin 0).
Proof.
  right. exists 0. repeat split; [lra | apply rnd_0 | apply bpow_pos].
Qed.


Lemma sqr_fin_inv (b : Float64.float64) :
  finite_val (Float64.mul b b) -> finite_val b.
Proof.
  unfold finite_val. destruct b; simpl; intros [x Hx]; try discriminate; eauto.
Qed.

Lemma Forall_map_inv {A B : Type} (f : A -> B) (P : B -> Prop)
      (Q : A -> Prop) (l : list A) :
  (forall a, P (f a) -> Q a) -> Forall P (map f l) -> Forall Q l.
Proof.
  intros HPQ. induction l as [|a l IH]; simpl; intros H; constructor;
    inversion H; subst; auto.
Qed.


Lemma sqrt_fin_inv (a : Float64.float64) :
  finite_val (Float64.sqrt a) -> finite_val a.
Proof.
  unfold finite_val. destruct a; simpl; intros [x Hx]; try discriminate; eauto.
Qed.

Lemma norm2_fin_all (beta : list Float64.float64) :
  finite_val (Float64.norm2 beta) -> Forall finite_val beta.
Proof.
  unfold Float64.norm2. intros H.
  apply sqrt_fin_inv, fold_add_fin_inv in H as [_ H].
  revert H. apply Forall_map_inv. exact sqr_fin_inv.
Qed.

Lemma norm1_rounded (beta : list Float64.float64) :
  Forall finite_val beta -> rounded_val (Float64.norm1 beta).
Proof.
  intros H. unfold Float64.norm1.
  apply fold_add_rounded; [apply rounded_zero|].
  induction H as [|b l [x ->] _ IH]; simpl; constructor; [|exact IH].
  right. exists (Rabs x). split; [reflexivity | apply Rabs_pos].
Qed.


Lemma sub_1_1 :
  Float64.sub (Float64.Fin 1) (Float64.Fin 1) = Float64.Fin 0.
Proof.
  unfold Float64.sub. simpl. replace (1 + - (1)) with 0 by lra. apply round_0.
Qed.

Lemma mul_half_0 :
  Float64.mul (Float64.Fin 0.5) (Float64.Fin 0) = Float64.Fin 0.
Proof.
  simpl. replace (0.5 * 0) with 0 by lra. apply round_0.
Qed.

Lemma mul_0_fin (r : R) :
  Float64.mul (Float64.Fin 0) (Float64.Fin r) = Float64.Fin 0.
Proof.
  simpl. rewrite Rmult_0_l. apply round_0.
Qed.

Lemma mul_1_rounded (a : Float64.float64) :
  rounded_val a -> Float64.mul (Float64.Fin 1) a = a.
Proof.
  intros [->|[x [-> [H0 [Hr Hlt]]]]]; simpl.
  - unfold Float64.mul_inf. destruct (Rlt_dec 0 1); [reflexivity | lra].
  - rewrite Rmult_1_l. now apply round_rounded_id.
Qed.

Lemma add_0_rounded (a : Float64.float64) :
  rounded_val a -> Float64.add (Float64.Fin 0) a = a.
Proof.
  intros [->|[x [-> [H0 [Hr Hlt]]]]]; simpl; [reflexivity|].
  rewrite Rplus_0_l. now apply round_rounded_id.
Qed.

(** C3, amended: in float64, when the Euclidean norm of [beta] is finite
    (the squares do not overflow), the penalty at [alpha = 1] is exactly
    the L1 norm of [beta]. *)
Theorem f64_penalty_lasso (beta : list Float64.float64) (r : R) :
  Float64.norm2 beta = Float64.Fin r ->
  Float64.penalty (Float64.Fin 1) beta = Float64.norm1 beta.
Proof.
  intros Hn2.
  assert (Hall : Forall finite_val beta).
  { apply norm2_fin_all. rewrite Hn2. now exists r. }
  pose proof (norm1_rounded beta Hall) as Hn1.
  unfold Float64.penalty.
  rewrite sub_1_1, mul_half_0, Hn2, mul_0_fin.
  rewrite (mul_1_rounded _ Hn1). now apply add_0_rounded.
Qed.

Lemma round_overflow (x : R) :
  bpow 1024 <= rnd x -> Float64.round x = Float64.PInf.
Proof.
  intros H. unfold Float64.round. cbv zeta.
  destruct (Rle_dec (bpow 1024) (rnd x)); [reflexivity | contradiction].
Qed.

Lemma round_bpow_fin (k : Z) :
  (-1074 <= k < 1024)%Z -> Float64.round (bpow k) = Float64.Fin (bpow k).
Proof.
  intros Hk. apply round_rounded_id.
  - left. apply bpow_pos.
  - apply rnd_bpow. lia.
  - apply bpow_lt. lia.
Qed.

Lemma round_bpow_inf (k : Z) :
  (1024 <= k)%Z -> Float64.round (bpow k) = Float64.PInf.
Proof.
  intros Hk. apply round_overflow.
  rewrite rnd_bpow by lia. apply bpow_le. lia.
Qed.

Lemma norm2_bpow_600 :
  Float64.norm2 [Float64.Fin (bpow 600)] = Float64.PInf.
Proof.
  unfold Float64.norm2. simpl.
  rewrite <- bpow_add. simpl (600 + 600)%Z.
  now rewrite round_bpow_inf by lia.
Qed.

Lemma norm1_bpow_600 :
  Float64.norm1 [Float64.Fin (bpow 600)] = Float64.Fin (bpow 600).
Proof.
  unfold Float64.norm1. simpl.
  rewrite Rabs_pos_eq by (left; apply bpow_pos).
  rewrite Rplus_0_l. apply round_bpow_fin. lia.
Qed.

Lemma mul_0_pinf :
  Float64.mul (Float64.Fin 0) Float64.PInf = Float64.NaN.
Proof.
  simpl. unfold Float64.mul_inf.
  destruct (Rlt_dec 0 0); [lra|]. reflexivity.
Qed.

(** C3, counterexample: at [beta = [2^600]] the squares overflow, the
    Euclidean norm is infinite and [0 * inf] makes the penalty a NaN, while
    the L1 norm is [2^600]. *)
Lemma f64_penalty_lasso_nan :
  Float64.is_float (bpow 600) /\
  Float64.penalty (Float64.Fin 1) [Float64.Fin (bpow 600)] = Float64.NaN /\
  Float64.norm1 [Float64.Fin (bpow 600)] = Float64.Fin (bpow 600) /\
  Float64.penalty (Float64.Fin 1) [Float64.Fin (bpow 600)] <>
  Float64.norm1 [Float64.Fin (bpow 600)].
Proof.
  assert (Hp : Float64.penalty (Float64.Fin 1) [Float64.Fin (bpow 600)] =
               Float64.NaN).
  { unfold Float64.penalty.
    now rewrite sub_1_1, mul_half_0, norm2_bpow_600, mul_0_pinf. }
  split; [|split; [exact Hp|split; [apply norm1_bpow_600|]]].
  - split; [apply rnd_bpow; lia|].
    rewrite Rabs_pos_eq by (left; apply bpow_pos). apply bpow_lt. lia.
  - rewrite Hp, norm1_bpow_600. discriminate.
Qed.

Lemma add_0_int (n : Z) :
  (0 <= n < 2 ^ 53)%Z ->
  Float64.add (Float64.Fin 0) (Float64.Fin (IZR n)) = Float64.Fin (IZR n).
Proof.
  intros Hn. simpl. rewrite Rplus_0_l. now apply round_int.
Qed.

Lemma f64_norm2_3_4 :
  Float64.norm2 [Float64.Fin 3; Float64.Fin 4] = Float64.Fin 5.
Proof.
  unfold Float64.norm2. simpl.
  replace (3 * 3) with 9 by lra. replace (4 * 4) with 16 by lra.
  rewrite (round_int 9), (round_int 16) by lia. simpl.
  rewrite Rplus_0_l, (round_int 9) by lia. simpl.
  replace (9 + 16) with 25 by lra. rewrite (round_int 25) by lia.
  unfold Float64.sqrt. destruct (Rlt_dec 25 0); [lra|].
  replace 25 with (5 * 5) by lra. rewrite sqrt_square by lra.
  apply (round_int 5). lia.
Qed.


Lemma f64_penalty_lasso_witness :
  Float64.penalty (Float64.Fin 1) [Float64.Fin 3; Float64.Fin 4] =
  Float64.norm1 [Float64.Fin 3; Float64.Fin 4].
Proof.
  apply (f64_penalty_lasso _ 5). exact f64_norm2_3_4.
Defined.

(** ** Sign of the penalty *)










